(** * libembeddedhal: frequency arithmetic, divider search and driver lifecycle

    A shallow embedding of [include/libembeddedhal/frequency.hpp] and
    [include/libembeddedhal/driver.hpp].  Fixed-width C++ integers are
    integers of [Z] with the wrap-around of every narrowing store written
    out; iterators into a divider sequence are positions in a list, the end
    iterator being the length of the list. *)

From Stdlib Require Import ZArith List Bool Lia QArith Qround Qabs.
Import ListNotations.

Local Open Scope Z_scope.

(** ** Fixed-width integers *)

Module Int.

Definition UINT32_MAX : Z := 4294967295.

(** Store into a [std::uint32_t]. *)
Definition to_u32 (z : Z) : Z := z mod 2 ^ 32.

(** Store into a [std::uint64_t]. *)
Definition to_u64 (z : Z) : Z := z mod 2 ^ 64.

(** Store into a [std::int64_t] (two's complement; the source relies on
    the products it forms not leaving this range). *)
Definition to_s64 (z : Z) : Z := (z + 2 ^ 63) mod 2 ^ 64 - 2 ^ 63.

Definition is_u32 (z : Z) : Prop := 0 <= z <= UINT32_MAX.

Definition is_s64 (z : Z) : Prop := - 2 ^ 63 <= z < 2 ^ 63.

End Int.

(** ** Results of fallible operations *)

(** [boost::leaf::result<T>]: a value, or a failure carrying what the callee
    reported. *)
Inductive result (E A : Type) : Type :=
| Ok (a : A)
| Err (e : E).

Arguments Ok {E A} a.
Arguments Err {E A} e.

(** The two failure kinds of the arithmetic engine. *)
Inductive errc : Type :=
| result_out_of_range   (* Overflow *)
| value_too_large.      (* OutOfRange / ValueTooLarge *)

(** [BOOST_LEAF_CHECK] / [EMBED_CHECK]: continue with the value, or return
    the failure of the callee as it is. *)
Definition leaf_check {E A B : Type} (r : result E A) (k : A -> result E B)
  : result E B :=
  match r with
  | Ok a => k a
  | Err e => Err e
  end.

(** ** Integer primitives of math.hpp *)

Module math.

(** Modelled from the spec: [math.hpp] is not part of the sources at hand.
    [rounding_division(n, d)] is integer division rounded to nearest, ties
    away from zero.  The spec leaves a zero denominator to the caller; the
    model is made total by returning 0 there. *)
Definition rounding_division (n d : Z) : Z :=
  if d =? 0 then 0
  else Z.sgn n * Z.sgn d * ((2 * Z.abs n + Z.abs d) / (2 * Z.abs d)).

(** Modelled from the spec: [distance(a, b)] is the unsigned absolute
    difference of two integers of the same width. *)
Definition distance (a b : Z) : Z := Z.abs (a - b).

(** Modelled from the spec: [absolute_value] makes its argument
    non-negative. *)
Definition absolute_value (z : Z) : Z := Z.abs z.

(** Modelled from the spec: checked [multiply(a, b)] of two unsigned
    integers, here at the 32-bit width of [frequency::value_hz]; it fails
    with Overflow when the mathematical product exceeds that width. *)
Definition multiply (a b : Z) : result errc Z :=
  if a * b <=? Int.UINT32_MAX then Ok (a * b) else Err result_out_of_range.

End math.

(** ** The percent type of percent.hpp *)

Module percent.

(** Modelled from the spec: [percent.hpp] is not part of the sources at
    hand.  A percent is a ratio value, convertible to a scaling factor;
    the type's contract keeps the factor in [0, 1]. *)
Record t : Type := make { factor : Q }.

Definition valid (p : t) : Prop := (0 <= factor p <= 1)%Q.

(** Modelled from the spec: a percent is a saturating fraction in [0, 1]. *)
Definition saturate (q : Q) : Q :=
  if Qle_bool q 0 then 0%Q else if Qle_bool 1 q then 1%Q else q.

(** Modelled from the spec: [percent::from_ratio(numerator, denominator)].
    The spec does not say what a zero denominator gives; the model gives
    the zero percent. *)
Definition from_ratio (numerator denominator : Z) : t :=
  if denominator <=? 0 then make 0
  else make (saturate (numerator # Z.to_pos denominator)).

(** Modelled from the spec: [count * percent], the count scaled by the
    factor, flooring. *)
Definition scale (count : Z) (p : t) : Z :=
  Qfloor (inject_Z count * factor p).

End percent.

(** ** frequency.hpp *)

Module divider_rule.

Inductive t : Type :=
| higher
| lower
| closest.

End divider_rule.

Module hal.

Import Int.

Record duty_cycle : Type := { high : Z; low : Z }.

(** [duty_cycle::operator percent]: the two operands handed to
    [percent::from_ratio], as (scaled_high, total_cycles). *)
Definition ratio_operands (d : duty_cycle) : Z * Z :=
  let overflow_total := to_u64 (to_u64 (high d) + to_u64 (low d)) in
  if overflow_total >? UINT32_MAX
  then (Z.shiftr (high d) 1, to_u32 (Z.shiftr overflow_total 1))
  else (high d, to_u32 overflow_total).

Definition to_percent (d : duty_cycle) : percent.t :=
  let '(scaled_high, total_cycles) := ratio_operands d in
  percent.from_ratio scaled_high total_cycles.

Record frequency : Type := { value_hz : Z }.

Definition default_frequency : frequency := {| value_hz := 100000 |}.

(** [operator<=>] of [frequency], defaulted: the order of [value_hz]. *)
Definition frequency_leb (a b : frequency) : bool :=
  value_hz a <=? value_hz b.

Definition frequency_geb (a b : frequency) : bool :=
  value_hz a >=? value_hz b.

(** [operator/(frequency, std::uint32_t)] *)
Definition div_scalar (p_lhs : frequency) (p_rhs : Z) : frequency :=
  {| value_hz := math.rounding_division (value_hz p_lhs) p_rhs |}.

(** [operator/(frequency, frequency)] *)
Definition div_frequency (p_source p_target : frequency) : Z :=
  math.rounding_division (value_hz p_source) (value_hz p_target).

(** [operator*(frequency, Integer)] *)
Definition mul_scalar (p_source : frequency) (p_scalar : Z)
  : result errc frequency :=
  leaf_check (math.multiply (value_hz p_source) p_scalar)
    (fun v => Ok {| value_hz := v |}).

(** [calculate_duty_cycle(std::uint32_t, percent)] *)
Definition calculate_duty_cycle (p_cycles : Z) (p_percent : percent.t)
  : duty_cycle :=
  let high := to_u32 (percent.scale p_cycles p_percent) in
  let low := to_u32 (p_cycles - high) in
  {| high := high; low := low |}.

(** Modelled from the spec: [hal::time_duration] comes from [units.hpp],
    which is not part of the sources at hand.  It is a signed 64-bit count
    of periods of [period_num / period_den] seconds; the period is a
    parameter of what follows. *)
Record time_duration : Type := { count : Z }.

Section Duration.

Variables period_num period_den : Z.

(** [cycles_per(frequency, time_duration)] *)
Definition cycles_per (p_source : frequency) (p_duration : time_duration)
  : Z :=
  let numerator := period_num in
  let denominator := period_den in
  let duration := to_s64 (math.absolute_value (count p_duration)) in
  let count := to_s64 (to_s64 (duration * value_hz p_source) * numerator) in
  let cycle_count := to_s64 (math.rounding_division count denominator) in
  cycle_count.

(** [calculate_duty_cycle(frequency, time_duration, percent)] *)
Definition calculate_duty_cycle_for (p_source_clock : frequency)
    (p_duration : time_duration) (p_percent : percent.t)
  : result errc duty_cycle :=
  let cycles := to_u64 (cycles_per p_source_clock p_duration) in
  if cycles >? UINT32_MAX then Err value_too_large
  else Ok (calculate_duty_cycle (to_u32 cycles) p_percent).

End Duration.

(** The two lambdas of [closest].  The [default] arm of the switch in
    [is_applicable] has no enumerator to reach it. *)
Definition cost (p_target p_candidate : frequency) : Z :=
  to_u32 (math.distance (value_hz p_candidate) (value_hz p_target)).

Definition is_applicable (p_target : frequency) (p_divider_rule : divider_rule.t)
    (p_candidate : frequency) : bool :=
  match p_divider_rule with
  | divider_rule.lower => frequency_leb p_candidate p_target
  | divider_rule.higher => frequency_geb p_candidate p_target
  | divider_rule.closest => true
  end.

(** The [for] loop of [closest]: [it] is the position of the head of
    [dividers], [best] and [best_cost] the running result. *)
Fixpoint closest_loop (p_source p_target : frequency)
    (p_divider_rule : divider_rule.t)
    (it : nat) (dividers : list Z) (best : nat) (best_cost : Z) : nat :=
  match dividers with
  | [] => best
  | d :: rest =>
      let candidate := div_scalar p_source d in
      if is_applicable p_target p_divider_rule candidate
         && (cost p_target candidate <? best_cost)
      then closest_loop p_source p_target p_divider_rule
             (S it) rest it (cost p_target candidate)
      else closest_loop p_source p_target p_divider_rule
             (S it) rest best best_cost
  end.

(** [closest(p_source, p_first, p_last, p_target, p_divider_rule)] over the
    sequence [dividers] = [p_first, p_last); the result is a position, and
    [length dividers] stands for [p_last]. *)
Definition closest (p_source : frequency) (dividers : list Z)
    (p_target : frequency) (p_divider_rule : divider_rule.t) : nat :=
  closest_loop p_source p_target p_divider_rule
    0%nat dividers (length dividers) UINT32_MAX.

End hal.

(** Both fields of a [duty_cycle] are [std::uint32_t]. *)
Definition duty_cycle_wf (d : hal.duty_cycle) : Prop :=
  Int.is_u32 (hal.high d) /\ Int.is_u32 (hal.low d).

(** Vocabulary for the divider search: whether the rule admits the frequency
    a divider gives, and what that frequency costs. *)
Definition eligible (p_source p_target : hal.frequency)
    (p_divider_rule : divider_rule.t) (d : Z) : Prop :=
  hal.is_applicable p_target p_divider_rule (hal.div_scalar p_source d) = true.

Definition cost_of (p_source p_target : hal.frequency) (d : Z) : Z :=
  hal.cost p_target (hal.div_scalar p_source d).

(** ** driver.hpp *)

Module embed.

Record driver (settings_t derived_t : Type) : Type :=
  { m_settings : settings_t;
    m_initialized_settings : settings_t;
    m_initialized : bool;
    m_derived : derived_t }.

Arguments m_settings {settings_t derived_t} d.
Arguments m_initialized_settings {settings_t derived_t} d.
Arguments m_initialized {settings_t derived_t} d.
Arguments m_derived {settings_t derived_t} d.

(** What one run of [driver_initialize()] did.  The hook is a member of the
    derived class: besides its own state it reaches the base through the
    public members, so it can write the staged settings through the mutable
    reference [settings()] hands out and it can call
    [set_as_uninitialized()]; [m_initialized_settings] is private and not
    written by any member it may call here.  [hook_settings] is the value of
    [m_settings] when the hook returns.  A hook that calls [initialize()]
    re-enters itself and is left out. *)
Record hook_run (settings_t derived_t E : Type) : Type :=
  { hook_result : result E unit;
    hook_settings : settings_t;
    hook_set_as_uninitialized : bool;
    hook_derived : derived_t }.

Arguments hook_result {settings_t derived_t E} h.
Arguments hook_settings {settings_t derived_t E} h.
Arguments hook_set_as_uninitialized {settings_t derived_t E} h.
Arguments hook_derived {settings_t derived_t E} h.

(** What a concrete driver supplies: the pure virtual
    [driver_initialize()], which sees the whole object. *)
Class driver_impl (settings_t derived_t E : Type) : Type :=
  { driver_initialize :
      driver settings_t derived_t -> hook_run settings_t derived_t E }.

Section driver.

Context {settings_t derived_t E : Type}.
Context {impl : driver_impl settings_t derived_t E}.

(** [driver() = default], for the value-initialised settings
    [settings_t{}] and a derived part. *)
Definition construct (default_settings : settings_t) (derived : derived_t)
  : driver settings_t derived_t :=
  {| m_settings := default_settings;
     m_initialized_settings := default_settings;
     m_initialized := false;
     m_derived := derived |}.

(** The object as [driver_initialize()] leaves it. *)
Definition after_hook (d : driver settings_t derived_t)
    (h : hook_run settings_t derived_t E) : driver settings_t derived_t :=
  {| m_settings := hook_settings h;
     m_initialized_settings := m_initialized_settings d;
     m_initialized :=
       if hook_set_as_uninitialized h then false else m_initialized d;
     m_derived := hook_derived h |}.

(** [initialize()]: the result and the object afterwards.  The commit
    copies [m_settings] as it is once the hook has returned.  The scope
    guard [embed::error::setup()] belongs to [error.hpp], which is not part
    of the sources at hand; it attaches context to a failure in flight and
    does not replace the failure that [EMBED_CHECK] returns. *)
Definition initialize (d : driver settings_t derived_t)
  : result E unit * driver settings_t derived_t :=
  let h := driver_initialize d in
  let d1 := after_hook d h in
  match hook_result h with
  | Err e => (Err e, d1)
  | Ok _ =>
      (Ok tt,
       {| m_settings := m_settings d1;
          m_initialized_settings := m_settings d1;
          m_initialized := true;
          m_derived := m_derived d1 |})
  end.

Definition set_as_uninitialized (d : driver settings_t derived_t)
  : driver settings_t derived_t :=
  {| m_settings := m_settings d;
     m_initialized_settings := m_initialized_settings d;
     m_initialized := false;
     m_derived := m_derived d |}.

Definition is_initialized (d : driver settings_t derived_t) : bool :=
  m_initialized d.

(** [settings()] hands out a mutable reference: reading it, and writing
    through it. *)
Definition settings (d : driver settings_t derived_t) : settings_t :=
  m_settings d.

Definition set_settings (s : settings_t) (d : driver settings_t derived_t)
  : driver settings_t derived_t :=
  {| m_settings := s;
     m_initialized_settings := m_initialized_settings d;
     m_initialized := m_initialized d;
     m_derived := m_derived d |}.

Definition initialized_settings (d : driver settings_t derived_t)
  : settings_t :=
  m_initialized_settings d.

End driver.

End embed.

(** A concrete driver for the examples below: a serial port whose settings
    are its baud rate, whose own state counts the times the hardware was
    programmed, and whose initialisation rejects a baud rate of zero.  Its
    hook only reads the settings. *)
Module serial.

Definition settings_t : Type := Z.

Inductive error : Type := invalid_baud_rate.

#[global] Instance impl : embed.driver_impl settings_t nat error :=
  {| embed.driver_initialize := fun d =>
       if embed.m_settings d =? 0
       then {| embed.hook_result := Err invalid_baud_rate;
               embed.hook_settings := embed.m_settings d;
               embed.hook_set_as_uninitialized := false;
               embed.hook_derived := embed.m_derived d |}
       else {| embed.hook_result := Ok tt;
               embed.hook_settings := embed.m_settings d;
               embed.hook_set_as_uninitialized := false;
               embed.hook_derived := S (embed.m_derived d) |} |}.

Definition fresh : embed.driver settings_t nat := embed.construct 9600 0%nat.

End serial.

(** A second concrete driver: a serial port that supports at most 115200
    baud.  Its hook writes the rate it really programmed back through
    [settings()], and calls [set_as_uninitialized()] before it reports a
    baud rate of zero.  The derived part is [unit], which tells its
    instance from the one above. *)
Module clamped_serial.

Definition max_baud : Z := 115200.

#[global] Instance impl : embed.driver_impl Z unit serial.error :=
  {| embed.driver_initialize := fun d =>
       if embed.m_settings d =? 0
       then {| embed.hook_result := Err serial.invalid_baud_rate;
               embed.hook_settings := embed.m_settings d;
               embed.hook_set_as_uninitialized := true;
               embed.hook_derived := tt |}
       else {| embed.hook_result := Ok tt;
               embed.hook_settings := Z.min (embed.m_settings d) max_baud;
               embed.hook_set_as_uninitialized := false;
               embed.hook_derived := tt |} |}.

Definition fresh : embed.driver Z unit := embed.construct 9600 tt.

End clamped_serial.

(** ** The rest of frequency.hpp *)

Module hal_time.

Import Int.

(** [wavelength<Period>(frequency)], for a period of [1 / period_den]
    seconds; the two [static_assert]s ask for a numerator of 1 and a
    denominator of at most 10^18. *)
Definition wavelength (period_den : Z) (p_source : hal.frequency) : Z :=
  let numerator := to_u64 period_den in
  let denominator := to_u64 (hal.value_hz p_source) in
  let duration := to_u64 (math.rounding_division numerator denominator) in
  to_s64 duration.

(** [duration_from_cycles(frequency, std::int32_t)]: a count of
    nanoseconds. *)
Definition duration_from_cycles (p_source : hal.frequency) (p_cycles : Z)
  : hal.time_duration :=
  let scale_den := 1000000000 in
  let scale_num := 1 in
  let numerator := to_s64 (p_cycles * scale_den) in
  let denominator := to_s64 (hal.value_hz p_source * scale_num) in
  let nanoseconds := to_s64 (math.rounding_division numerator denominator) in
  {| hal.count := nanoseconds |}.

End hal_time.

(** [hal::literals]: the suffix takes an [unsigned long long], scales it in
    that type and narrows the product to the 32-bit [value_hz]. *)
Module literals.

Import Int.

Definition Hz (p_value : Z) : hal.frequency :=
  {| hal.value_hz := to_u32 p_value |}.

Definition kHz (p_value : Z) : hal.frequency :=
  let value := to_u64 (p_value * 1000) in
  {| hal.value_hz := to_u32 value |}.

Definition MHz (p_value : Z) : hal.frequency :=
  let value := to_u64 (p_value * 1000000) in
  {| hal.value_hz := to_u32 value |}.

End literals.

(** ** libhal/experimental/temperature/mock.hpp *)

Module mock.

Inductive error : Type := out_of_range.

(** [hal::mock::temperature_sensor]: the queue of temperatures still to be
    returned, front first. *)
Record temperature_sensor : Type := { m_temperatures : list Z }.

(** [set(std::queue<microkelvin>&)] copies the queue handed in. *)
Definition set (p_temperatures : list Z) (s : temperature_sensor)
  : temperature_sensor :=
  {| m_temperatures := p_temperatures |}.

(** [driver_read()]: the result and the sensor afterwards. *)
Definition driver_read (s : temperature_sensor)
  : result error Z * temperature_sensor :=
  match m_temperatures s with
  | [] => (Err out_of_range, s)
  | m_current_value :: rest =>
      (Ok m_current_value, {| m_temperatures := rest |})
  end.

(** [n] calls of [driver_read()] in a row: what each returned, and the
    sensor afterwards. *)
Fixpoint read_many (n : nat) (s : temperature_sensor)
  : list (result error Z) * temperature_sensor :=
  match n with
  | O => ([], s)
  | S n' =>
      let '(r, s') := driver_read s in
      let '(rs, s'') := read_many n' s' in
      (r :: rs, s'')
  end.

End mock.

(** ** Programs over the driver interface *)

Module lifecycle.

(** What an application can do with a driver through its public members. *)
Inductive op (settings_t : Type) : Type :=
| call_initialize
| call_set_as_uninitialized
| assign_settings (s : settings_t).

Arguments call_initialize {settings_t}.
Arguments call_set_as_uninitialized {settings_t}.
Arguments assign_settings {settings_t} s.

Section run.

Context {settings_t derived_t E : Type}.
Context {impl : embed.driver_impl settings_t derived_t E}.

Definition step (d : embed.driver settings_t derived_t) (o : op settings_t)
  : embed.driver settings_t derived_t :=
  match o with
  | call_initialize => snd (embed.initialize d)
  | call_set_as_uninitialized => embed.set_as_uninitialized d
  | assign_settings s => embed.set_settings s d
  end.

Definition run (ops : list (op settings_t))
    (d : embed.driver settings_t derived_t)
  : embed.driver settings_t derived_t :=
  fold_left step ops d.

(** Settings that some successful run of [driver_initialize] left
    staged. *)
Definition accepted (s : settings_t) : Prop :=
  exists d0 : embed.driver settings_t derived_t,
    embed.hook_result (embed.driver_initialize d0) = Ok tt /\
    embed.hook_settings (embed.driver_initialize d0) = s.

(** What every driver reached from a fresh one is shown to satisfy: the
    committed settings are the default-constructed ones or accepted ones,
    and accepted ones when the driver reports initialized. *)
Definition reachable_ok (default_settings : settings_t)
    (d : embed.driver settings_t derived_t) : Prop :=
  (embed.is_initialized d = true -> accepted (embed.initialized_settings d)) /\
  (embed.initialized_settings d = default_settings \/
   accepted (embed.initialized_settings d)).

End run.

End lifecycle.

(** * Properties *)

Import Int.

(** Linear arithmetic with quotients and remainders by constants. *)
Ltac div_lia := Z.div_mod_to_equations; lia.

(** ** Narrowing stores *)

Lemma to_u32_small (z : Z) : is_u32 z -> to_u32 z = z.
Proof. unfold is_u32, to_u32, UINT32_MAX. intros H. apply Z.mod_small. lia. Qed.

Lemma to_u32_range (z : Z) : is_u32 (to_u32 z).
Proof.
  unfold is_u32, to_u32, UINT32_MAX.
  pose proof (Z.mod_pos_bound z (2 ^ 32) eq_refl). lia.
Qed.

Lemma to_u64_small (z : Z) : 0 <= z < 2 ^ 64 -> to_u64 z = z.
Proof. unfold to_u64. apply Z.mod_small. Qed.

Lemma to_s64_range (z : Z) : is_s64 (to_s64 z).
Proof.
  unfold is_s64, to_s64.
  pose proof (Z.mod_pos_bound (z + 2 ^ 63) (2 ^ 64) eq_refl). lia.
Qed.

Lemma to_s64_small (z : Z) : is_s64 z -> to_s64 z = z.
Proof.
  unfold is_s64, to_s64. intros H.
  rewrite Z.mod_small; lia.
Qed.

(** A signed 64-bit value whose unsigned image fits 32 bits was not
    negative, and the conversion did not change it. *)
Lemma to_u64_of_s64_small (c : Z) :
  is_s64 c -> to_u64 c <= UINT32_MAX -> 0 <= c /\ to_u64 c = c.
Proof.
  unfold is_s64, to_u64, UINT32_MAX. intros Hc Hle.
  destruct (Z_lt_le_dec c 0) as [Hneg | Hpos].
  - exfalso.
    assert (Heq : c mod 2 ^ 64 = c + 2 ^ 64).
    { symmetry. apply (Z.mod_unique_pos c (2 ^ 64) (-1)); lia. }
    lia.
  - split; [assumption | apply Z.mod_small; lia].
Qed.

Lemma to_u64_of_s64_neg (c : Z) :
  is_s64 c -> c < 0 -> UINT32_MAX < to_u64 c.
Proof.
  intros Hc Hneg.
  destruct (Z_lt_le_dec UINT32_MAX (to_u64 c)) as [H | H]; [assumption |].
  destruct (to_u64_of_s64_small c Hc H). lia.
Qed.

(** ** duty_cycle to percent *)

Lemma ratio_operands_fits (d : hal.duty_cycle) :
  duty_cycle_wf d ->
  hal.high d + hal.low d <= UINT32_MAX ->
  hal.ratio_operands d = (hal.high d, hal.high d + hal.low d).
Proof.
  unfold duty_cycle_wf, is_u32, hal.ratio_operands. intros [Hh Hl] Hsum.
  rewrite (to_u64_small (hal.high d)), (to_u64_small (hal.low d)),
    to_u64_small by (unfold UINT32_MAX in *; lia).
  destruct (Z.gtb_spec (hal.high d + hal.low d) UINT32_MAX) as [Hgt | _];
    [lia |].
  rewrite to_u32_small by (unfold is_u32; lia).
  reflexivity.
Qed.

Lemma ratio_operands_halved (d : hal.duty_cycle) :
  duty_cycle_wf d ->
  UINT32_MAX < hal.high d + hal.low d ->
  hal.ratio_operands d = (hal.high d / 2, (hal.high d + hal.low d) / 2).
Proof.
  unfold duty_cycle_wf, is_u32, hal.ratio_operands. intros [Hh Hl] Hsum.
  rewrite (to_u64_small (hal.high d)), (to_u64_small (hal.low d)),
    to_u64_small by (unfold UINT32_MAX in *; lia).
  destruct (Z.gtb_spec (hal.high d + hal.low d) UINT32_MAX) as [_ | Hle];
    [| lia].
  rewrite !Z.shiftr_div_pow2 by lia. change (2 ^ 1) with 2.
  rewrite to_u32_small by (unfold is_u32, UINT32_MAX in *; div_lia).
  reflexivity.
Qed.

(** ** The percent model *)

Lemma Qle_bool_false (x y : Q) : Qle_bool x y = false -> (y < x)%Q.
Proof.
  intros H. apply Qnot_le_lt. intros Hle.
  apply Qle_bool_iff in Hle. congruence.
Qed.

Lemma saturate_valid (q : Q) : (0 <= percent.saturate q <= 1)%Q.
Proof.
  unfold percent.saturate.
  destruct (Qle_bool q 0) eqn:H0; [split; discriminate |].
  destruct (Qle_bool 1 q) eqn:H1; [split; discriminate |].
  apply Qle_bool_false in H0, H1.
  split; apply Qlt_le_weak; assumption.
Qed.

Lemma saturate_id (q : Q) : (0 <= q <= 1)%Q -> (percent.saturate q == q)%Q.
Proof.
  intros [Hlo Hhi]. unfold percent.saturate.
  destruct (Qle_bool q 0) eqn:H0.
  - apply Qle_bool_iff in H0. apply Qle_antisym; assumption.
  - destruct (Qle_bool 1 q) eqn:H1; [| reflexivity].
    apply Qle_bool_iff in H1. apply Qle_antisym; assumption.
Qed.

Lemma from_ratio_valid (n d : Z) : percent.valid (percent.from_ratio n d).
Proof.
  unfold percent.valid, percent.from_ratio.
  destruct (d <=? 0); cbn [percent.factor].
  - split; discriminate.
  - apply saturate_valid.
Qed.

(** Within the contract (numerator no larger than a positive denominator)
    the factor is the ratio itself. *)
Lemma from_ratio_factor (n d : Z) :
  0 <= n <= d -> 0 < d ->
  (percent.factor (percent.from_ratio n d) == n # Z.to_pos d)%Q.
Proof.
  intros Hn Hd. unfold percent.from_ratio.
  destruct (Z.leb_spec d 0) as [Hle | _]; [lia |].
  cbn [percent.factor]. apply saturate_id.
  unfold Qle; cbn [Qnum Qden]. rewrite Z2Pos.id by assumption. lia.
Qed.

(** Scaling by a factor given as a fraction is a floored quotient. *)
Lemma scale_fraction (c a : Z) (b : positive) (p : percent.t) :
  (percent.factor p == a # b)%Q ->
  percent.scale c p = (c * a) / Z.pos b.
Proof.
  intros Hp. unfold percent.scale.
  rewrite Hp. unfold Qfloor, Qmult, inject_Z; cbn [Qnum Qden].
  reflexivity.
Qed.

(** Scaling a non-negative count by a valid percent stays within the count. *)
Lemma scale_bounds (c : Z) (p : percent.t) :
  0 <= c -> percent.valid p -> 0 <= percent.scale c p <= c.
Proof.
  intros Hc [Hlo Hhi]. destruct p as [[a b]].
  unfold percent.scale, Qfloor, Qmult, inject_Z; cbn [Qnum Qden percent.factor] in *.
  unfold Qle in Hlo, Hhi; cbn [Qnum Qden] in Hlo, Hhi.
  change (Z.pos (1 * b)) with (Z.pos b).
  split.
  - apply Z.div_pos; nia.
  - apply Z.div_le_upper_bound; nia.
Qed.

(** ** Claims on the conversion from duty_cycle to percent *)

Lemma to_percent_operands (d : hal.duty_cycle) :
  hal.to_percent d =
  percent.from_ratio (fst (hal.ratio_operands d)) (snd (hal.ratio_operands d)).
Proof. unfold hal.to_percent. destruct (hal.ratio_operands d); reflexivity. Qed.

(** C10: in both branches of the conversion, the numerator handed to
    [percent::from_ratio] is at most the denominator, and both fit the
    unsigned 32-bit operands of the call. *)
Theorem to_percent_numerator_le_denominator (d : hal.duty_cycle) :
  duty_cycle_wf d ->
  let scaled_high := fst (hal.ratio_operands d) in
  let total_cycles := snd (hal.ratio_operands d) in
  hal.to_percent d = percent.from_ratio scaled_high total_cycles /\
  0 <= scaled_high <= total_cycles /\
  is_u32 scaled_high /\ is_u32 total_cycles.
Proof.
  intros Hwf. cbv zeta. split; [apply to_percent_operands |].
  destruct (Z_le_gt_dec (hal.high d + hal.low d) UINT32_MAX) as [Hfit | Hover].
  - rewrite (ratio_operands_fits d Hwf Hfit); cbn [fst snd].
    destruct Hwf as [Hh Hl]. unfold is_u32 in *. lia.
  - rewrite (ratio_operands_halved d Hwf) by lia; cbn [fst snd].
    destruct Hwf as [Hh Hl]. unfold is_u32, UINT32_MAX in *. div_lia.
Qed.

Lemma to_percent_numerator_le_denominator_witness :
  let d := {| hal.high := 4294967295; hal.low := 4294967295 |} in
  hal.ratio_operands d = (2147483647, 4294967295) /\
  0 <= fst (hal.ratio_operands d) <= snd (hal.ratio_operands d).
Proof.
  cbv zeta. split; [reflexivity |].
  apply (to_percent_numerator_le_denominator
           {| hal.high := 4294967295; hal.low := 4294967295 |}).
  unfold duty_cycle_wf, is_u32, UINT32_MAX; simpl; lia.
Defined.

(** C5: the conversion forms the ratio high / (high + low); when the sum
    does not fit 32 bits both operands are shifted right by one first, which
    keeps the ratio exactly when both counts are even and otherwise moves it
    by at most 1 / (high + low). *)
Theorem to_percent_halving_preserves_ratio (d : hal.duty_cycle) :
  duty_cycle_wf d ->
  let total := hal.high d + hal.low d in
  (total <= UINT32_MAX ->
     hal.ratio_operands d = (hal.high d, total) /\
     (0 < total ->
      (percent.factor (hal.to_percent d) == hal.high d # Z.to_pos total)%Q)) /\
  (UINT32_MAX < total ->
     hal.ratio_operands d = (Z.shiftr (hal.high d) 1, Z.shiftr total 1) /\
     (Qabs (percent.factor (hal.to_percent d) - (hal.high d # Z.to_pos total))
        <= 1 # Z.to_pos total)%Q /\
     (Z.even (hal.high d) = true -> Z.even (hal.low d) = true ->
      (percent.factor (hal.to_percent d) == hal.high d # Z.to_pos total)%Q)).
Proof.
  intros Hwf. cbv zeta. pose proof Hwf as [Hh Hl]. unfold is_u32 in Hh, Hl.
  split; intros Hsum.
  - split; [apply ratio_operands_fits; assumption |].
    intros Hpos. rewrite to_percent_operands, ratio_operands_fits by assumption.
    cbn [fst snd]. apply from_ratio_factor; lia.
  - rewrite !Z.shiftr_div_pow2 by lia. change (2 ^ 1) with 2.
    split; [apply ratio_operands_halved; assumption |].
    rewrite to_percent_operands, ratio_operands_halved by assumption.
    cbn [fst snd].
    assert (Hs : 0 <= hal.high d / 2 <= (hal.high d + hal.low d) / 2)
      by (unfold UINT32_MAX in *; div_lia).
    assert (Ht : 0 < (hal.high d + hal.low d) / 2)
      by (unfold UINT32_MAX in *; div_lia).
    rewrite (from_ratio_factor _ _ Hs Ht).
    split.
    + apply Qabs_Qle_condition.
      unfold Qle, Qminus, Qplus, Qopp; cbn [Qnum Qden].
      rewrite !Pos2Z.inj_mul, !Z2Pos.id by (unfold UINT32_MAX in *; lia).
      unfold UINT32_MAX in *.
      split; Z.div_mod_to_equations; nia.
    + intros Eh El.
      apply Z.even_spec in Eh, El. destruct Eh as [a Ha], El as [b Hb].
      unfold Qeq; cbn [Qnum Qden].
      rewrite !Z2Pos.id by (unfold UINT32_MAX in *; lia).
      rewrite Ha, Hb.
      replace (2 * a + 2 * b) with ((a + b) * 2) by lia.
      replace (2 * a) with (a * 2) by lia.
      rewrite !Z.div_mul by lia. lia.
Qed.

Lemma to_percent_halving_preserves_ratio_witness :
  let d := {| hal.high := 3; hal.low := 4294967295 |} in
  hal.ratio_operands d = (Z.shiftr 3 1, Z.shiftr 4294967298 1) /\
  (Qabs (percent.factor (hal.to_percent d) - (3 # 4294967298)) <= 1 # 4294967298)%Q.
Proof.
  cbv zeta.
  assert (Hwf : duty_cycle_wf {| hal.high := 3; hal.low := 4294967295 |})
    by (unfold duty_cycle_wf, is_u32, UINT32_MAX; simpl; lia).
  assert (Hover : UINT32_MAX < 3 + 4294967295)
    by (unfold UINT32_MAX; lia).
  destruct (to_percent_halving_preserves_ratio _ Hwf) as [_ Hhalved].
  destruct (Hhalved Hover) as [Hops [Hbound _]].
  split; [exact Hops | exact Hbound].
Defined.

(** ** Claims on duty-cycle derivation *)

(** C3: for an unsigned 32-bit cycle count and a percent within [0, 1],
    [calculate_duty_cycle] returns high = floor (cycles * percent) and
    low = cycles - high, with high <= cycles; 10 cycles at 1/2 give
    {5, 5} and at 1/3 give {3, 7}. *)
Theorem calculate_duty_cycle_split :
  (forall (p_cycles : Z) (p_percent : percent.t),
      is_u32 p_cycles -> percent.valid p_percent ->
      let d := hal.calculate_duty_cycle p_cycles p_percent in
      hal.high d = Qfloor (inject_Z p_cycles * percent.factor p_percent) /\
      hal.low d = p_cycles - hal.high d /\
      0 <= hal.high d <= p_cycles) /\
  hal.calculate_duty_cycle 10 (percent.from_ratio 1 2)
    = {| hal.high := 5; hal.low := 5 |} /\
  hal.calculate_duty_cycle 10 (percent.from_ratio 1 3)
    = {| hal.high := 3; hal.low := 7 |}.
Proof.
  split; [| split; reflexivity].
  intros p_cycles p_percent Hc Hp. cbv zeta.
  unfold hal.calculate_duty_cycle; cbn [hal.high hal.low].
  pose proof Hc as [Hc0 Hc1].
  pose proof (scale_bounds p_cycles p_percent Hc0 Hp) as Hs.
  rewrite (to_u32_small (percent.scale p_cycles p_percent))
    by (unfold is_u32; lia).
  rewrite to_u32_small by (unfold is_u32; lia).
  unfold percent.scale in *. lia.
Qed.

Lemma calculate_duty_cycle_split_witness :
  let d := hal.calculate_duty_cycle 1000 (percent.from_ratio 1 3) in
  hal.high d = 333 /\ hal.low d = 1000 - hal.high d /\ 0 <= hal.high d <= 1000.
Proof.
  cbv zeta.
  assert (Hc : is_u32 1000) by (unfold is_u32, UINT32_MAX; lia).
  destruct (proj1 calculate_duty_cycle_split 1000 (percent.from_ratio 1 3)
              Hc (from_ratio_valid 1 3)) as [Hhigh Hrest].
  split; [rewrite Hhigh; reflexivity | exact Hrest].
Defined.

(** Converting a duty cycle whose sum fits 32 bits to a percent and back
    loses nothing in this model of percent. *)
Lemma duty_cycle_round_trip_exact (h l : Z) :
  is_u32 h -> is_u32 l -> h + l <= UINT32_MAX ->
  hal.calculate_duty_cycle (h + l)
    (hal.to_percent {| hal.high := h; hal.low := l |})
  = {| hal.high := h; hal.low := l |}.
Proof.
  intros Hh Hl Hsum. pose proof Hh as [Hh0 _]. pose proof Hl as [Hl0 _].
  assert (Hwf : duty_cycle_wf {| hal.high := h; hal.low := l |})
    by (split; assumption).
  rewrite to_percent_operands, (ratio_operands_fits _ Hwf)
    by (cbn [hal.high hal.low]; assumption).
  cbn [fst snd hal.high hal.low].
  assert (Hscale : percent.scale (h + l) (percent.from_ratio h (h + l)) = h).
  { destruct (Z.eq_dec (h + l) 0) as [Hz | Hnz].
    - rewrite Hz. replace h with 0 by lia. reflexivity.
    - rewrite (scale_fraction (h + l) h (Z.to_pos (h + l)))
        by (apply from_ratio_factor; lia).
      rewrite Z2Pos.id by lia. rewrite Z.mul_comm. apply Z.div_mul. assumption. }
  unfold hal.calculate_duty_cycle. rewrite Hscale.
  rewrite (to_u32_small h) by assumption.
  replace (h + l - h) with l by lia.
  rewrite to_u32_small by assumption. reflexivity.
Qed.

(** C6: for a duty cycle {h, l} whose sum fits 32 bits, converting to
    percent and back through [calculate_duty_cycle (h + l)] gives each
    component within one cycle of the original. *)
Theorem duty_cycle_round_trip (h l : Z) :
  is_u32 h -> is_u32 l -> h + l <= UINT32_MAX ->
  let d := hal.calculate_duty_cycle (h + l)
             (hal.to_percent {| hal.high := h; hal.low := l |}) in
  Z.abs (hal.high d - h) <= 1 /\ Z.abs (hal.low d - l) <= 1.
Proof.
  intros Hh Hl Hsum. cbv zeta.
  rewrite duty_cycle_round_trip_exact by assumption.
  cbn [hal.high hal.low]. lia.
Qed.

Lemma duty_cycle_round_trip_witness :
  let d := hal.calculate_duty_cycle (3 + 7)
             (hal.to_percent {| hal.high := 3; hal.low := 7 |}) in
  Z.abs (hal.high d - 3) <= 1 /\ Z.abs (hal.low d - 7) <= 1.
Proof.
  apply (duty_cycle_round_trip 3 7);
    unfold is_u32, UINT32_MAX; lia.
Defined.

(** C4: [frequency * scalar] is the exact product when it fits 32 bits and
    an Overflow failure otherwise. *)
Theorem mul_scalar_checked (f : hal.frequency) (s : Z) :
  (hal.value_hz f * s <= UINT32_MAX ->
   hal.mul_scalar f s = Ok {| hal.value_hz := hal.value_hz f * s |}) /\
  (UINT32_MAX < hal.value_hz f * s ->
   hal.mul_scalar f s = Err result_out_of_range).
Proof.
  unfold hal.mul_scalar, math.multiply, leaf_check.
  destruct (Z.leb_spec (hal.value_hz f * s) UINT32_MAX) as [Hle | Hgt];
    split; intros H; first [reflexivity | lia].
Qed.

Lemma mul_scalar_checked_witness :
  hal.mul_scalar {| hal.value_hz := 65536 |} 65535
    = Ok {| hal.value_hz := 65536 * 65535 |} /\
  hal.mul_scalar {| hal.value_hz := 65536 |} 65536 = Err result_out_of_range.
Proof.
  split.
  - apply (proj1 (mul_scalar_checked {| hal.value_hz := 65536 |} 65535)).
    unfold UINT32_MAX; simpl; lia.
  - apply (proj2 (mul_scalar_checked {| hal.value_hz := 65536 |} 65536)).
    unfold UINT32_MAX; simpl; lia.
Defined.

Lemma cycles_per_is_s64 (period_num period_den : Z)
    (p_source : hal.frequency) (p_duration : hal.time_duration) :
  is_s64 (hal.cycles_per period_num period_den p_source p_duration).
Proof. unfold hal.cycles_per. apply to_s64_range. Qed.

(** C2: the duration overload computes [cycles_per]; when that cycle count,
    held in the unsigned 64-bit local, exceeds the 32-bit maximum the result
    is the value_too_large failure, and otherwise the count is passed
    unchanged (it was not negative and loses no bits in the cast) to the
    cycle-count overload, whose result is returned. *)
Theorem calculate_duty_cycle_for_checks_range (period_num period_den : Z)
    (p_source_clock : hal.frequency) (p_duration : hal.time_duration)
    (p_percent : percent.t) :
  let cycle_count :=
    hal.cycles_per period_num period_den p_source_clock p_duration in
  let r := hal.calculate_duty_cycle_for period_num period_den
             p_source_clock p_duration p_percent in
  (UINT32_MAX < to_u64 cycle_count -> r = Err value_too_large) /\
  (UINT32_MAX < cycle_count -> r = Err value_too_large) /\
  (to_u64 cycle_count <= UINT32_MAX ->
     0 <= cycle_count <= UINT32_MAX /\
     r = Ok (hal.calculate_duty_cycle cycle_count p_percent)).
Proof.
  cbv zeta. unfold hal.calculate_duty_cycle_for.
  pose proof (cycles_per_is_s64 period_num period_den p_source_clock p_duration)
    as Hrange.
  set (c := hal.cycles_per period_num period_den p_source_clock p_duration) in *.
  destruct (Z.gtb_spec (to_u64 c) UINT32_MAX) as [Hgt | Hle].
  - split; [reflexivity |]. split; [reflexivity |]. lia.
  - destruct (to_u64_of_s64_small c Hrange Hle) as [Hpos Heq].
    split; [lia |]. split; [lia |]. intros _.
    rewrite Heq. rewrite to_u32_small by (unfold is_u32; lia).
    split; [lia | reflexivity].
Qed.

Lemma calculate_duty_cycle_for_checks_range_witness :
  hal.calculate_duty_cycle_for 1 1000000000
    {| hal.value_hz := 1000000 |} {| hal.count := -5000 |}
    (percent.from_ratio 1 2)
  = Ok (hal.calculate_duty_cycle 5 (percent.from_ratio 1 2)) /\
  hal.calculate_duty_cycle_for 1 1000000000
    {| hal.value_hz := 1000000 |} {| hal.count := 5000000000000 |}
    (percent.from_ratio 1 2)
  = Err value_too_large.
Proof.
  split.
  - apply (proj2 (proj2 (calculate_duty_cycle_for_checks_range 1 1000000000
             {| hal.value_hz := 1000000 |} {| hal.count := -5000 |}
             (percent.from_ratio 1 2)))).
    vm_compute. discriminate.
  - apply (proj1 (calculate_duty_cycle_for_checks_range 1 1000000000
             {| hal.value_hz := 1000000 |} {| hal.count := 5000000000000 |}
             (percent.from_ratio 1 2))).
    vm_compute. reflexivity.
Defined.

(** ** The divider search *)

Example rounding_division_examples :
  math.rounding_division 5 2 = 3 /\ math.rounding_division 4 2 = 2 /\
  math.rounding_division (-5) 2 = -3 /\ math.rounding_division 7 3 = 2.
Proof. repeat split; reflexivity. Qed.

Lemma rounding_division_nonneg (n d : Z) :
  0 <= n -> 0 < d ->
  math.rounding_division n d = (2 * n + d) / (2 * d).
Proof.
  intros Hn Hd. unfold math.rounding_division.
  destruct (Z.eqb_spec d 0) as [Hz | _]; [lia |].
  rewrite (Z.sgn_pos d), (Z.abs_eq n), (Z.abs_eq d) by lia.
  destruct (Z.eq_dec n 0) as [-> | Hn0].
  - replace (2 * 0 + d) with d by lia.
    rewrite (Z.div_small d (2 * d)) by lia. reflexivity.
  - rewrite (Z.sgn_pos n) by lia. lia.
Qed.

(** The quotient of non-negative operands is the nearest integer, and no
    larger than the numerator. *)
Lemma rounding_division_nearest (n d : Z) :
  0 <= n -> 0 < d ->
  let q := math.rounding_division n d in
  0 <= q <= n /\ 2 * Z.abs (q * d - n) <= d.
Proof.
  intros Hn Hd. cbv zeta. rewrite rounding_division_nonneg by assumption.
  pose proof (Z.div_mod (2 * n + d) (2 * d) ltac:(lia)) as Hdm.
  pose proof (Z.mod_pos_bound (2 * n + d) (2 * d) ltac:(lia)) as Hm.
  set (q := (2 * n + d) / (2 * d)) in *.
  set (r := (2 * n + d) mod (2 * d)) in *.
  assert (0 <= q) by nia.
  assert (q <= n) by nia.
  split; [lia |]. nia.
Qed.

Lemma rounding_division_u32 (n d : Z) :
  is_u32 n -> 0 <= d -> is_u32 (math.rounding_division n d).
Proof.
  unfold is_u32. intros Hn Hd.
  destruct (Z.eq_dec d 0) as [-> | Hnz].
  - unfold math.rounding_division, UINT32_MAX. cbn. lia.
  - destruct (rounding_division_nearest n d) as [Hq _]; lia.
Qed.

(** Within the precision budget of the source (the products fit the signed
    64-bit width) [cycles_per] is the rounded quotient of
    |duration| * frequency * period_num by period_den. *)
Lemma cycles_per_exact (period_num period_den : Z)
    (p_source : hal.frequency) (p_duration : hal.time_duration) :
  0 <= hal.value_hz p_source -> 0 <= period_num -> 0 < period_den ->
  Z.abs (hal.count p_duration) < 2 ^ 63 ->
  Z.abs (hal.count p_duration) * hal.value_hz p_source < 2 ^ 63 ->
  Z.abs (hal.count p_duration) * hal.value_hz p_source * period_num < 2 ^ 63 ->
  hal.cycles_per period_num period_den p_source p_duration
  = math.rounding_division
      (Z.abs (hal.count p_duration) * hal.value_hz p_source * period_num)
      period_den.
Proof.
  intros Hhz Hnum Hden H1 H2 H3.
  unfold hal.cycles_per, math.absolute_value.
  rewrite (to_s64_small (Z.abs (hal.count p_duration)))
    by (unfold is_s64; lia).
  rewrite (to_s64_small (Z.abs (hal.count p_duration) * hal.value_hz p_source))
    by (unfold is_s64; nia).
  rewrite (to_s64_small
             (Z.abs (hal.count p_duration) * hal.value_hz p_source * period_num))
    by (unfold is_s64; nia).
  apply to_s64_small.
  destruct (rounding_division_nearest
              (Z.abs (hal.count p_duration) * hal.value_hz p_source * period_num)
              period_den) as [Hq _]; [nia | lia |].
  unfold is_s64. lia.
Qed.

(** On 32-bit frequencies the cost of a candidate is its distance to the
    target, with nothing lost in the 32-bit result. *)
Lemma cost_is_distance (p_target p_candidate : hal.frequency) :
  is_u32 (hal.value_hz p_target) -> is_u32 (hal.value_hz p_candidate) ->
  hal.cost p_target p_candidate
  = Z.abs (hal.value_hz p_candidate - hal.value_hz p_target).
Proof.
  unfold hal.cost, math.distance. intros Ht Hc.
  apply to_u32_small. unfold is_u32 in *. lia.
Qed.

Section Closest.

Variables p_source p_target : hal.frequency.
Variable p_divider_rule : divider_rule.t.

Local Abbreviation admits := (eligible p_source p_target p_divider_rule).
Local Abbreviation cost := (cost_of p_source p_target).

(** Invariant of the scan: either nothing in the rest of the sequence
    beat the running best, or the result is the first position of the rest
    whose eligible candidate has the least cost, below the running best. *)
Lemma closest_loop_spec (dividers : list Z) :
  forall (it best : nat) (best_cost : Z),
    let r := hal.closest_loop p_source p_target p_divider_rule
               it dividers best best_cost in
    (r = best /\
     forall k d, nth_error dividers k = Some d -> admits d ->
                 best_cost <= cost d)
    \/
    (exists k d,
        r = (it + k)%nat /\ nth_error dividers k = Some d /\
        admits d /\ cost d < best_cost /\
        (forall j d', nth_error dividers j = Some d' -> admits d' ->
                      cost d <= cost d') /\
        (forall j d', (j < k)%nat -> nth_error dividers j = Some d' ->
                      admits d' -> cost d < cost d')).
Proof.
  induction dividers as [| a rest IH]; intros it best best_cost; cbv zeta.
  - left. split; [reflexivity |]. intros [| k] d H; discriminate H.
  - cbn [hal.closest_loop].
    fold (cost a).
    destruct (hal.is_applicable p_target p_divider_rule
                (hal.div_scalar p_source a)
              && (cost a <? best_cost)) eqn:Htest.
    + apply andb_true_iff in Htest. destruct Htest as [Happ Hlt].
      apply Z.ltb_lt in Hlt.
      right.
      destruct (IH (S it) it (cost a)) as [[Hr Hall] | Hex].
      * exists 0%nat, a. rewrite Hr.
        split; [lia |]. split; [reflexivity |].
        split; [exact Happ |]. split; [exact Hlt |].
        split.
        -- intros [| j] d' Hj Hel; cbn in Hj.
           ++ injection Hj as <-. lia.
           ++ apply (Hall j d' Hj Hel).
        -- intros j d' Hj. lia.
      * destruct Hex as (k & d & Hr & Hk & Hel & Hc & Hmin & Hfirst).
        exists (S k), d. rewrite Hr.
        split; [lia |]. split; [exact Hk |].
        split; [exact Hel |]. split; [lia |].
        split.
        -- intros [| j] d' Hj Hel'; cbn in Hj.
           ++ injection Hj as <-. lia.
           ++ apply (Hmin j d' Hj Hel').
        -- intros [| j] d' Hlt' Hj Hel'; cbn in Hj.
           ++ injection Hj as <-. lia.
           ++ apply (Hfirst j d'); [lia | assumption | assumption].
    + assert (Hskip : admits a -> best_cost <= cost a).
      { intros Hel. unfold eligible in Hel. rewrite Hel in Htest.
        cbn in Htest. apply Z.ltb_ge in Htest. exact Htest. }
      destruct (IH (S it) best best_cost) as [[Hr Hall] | Hex].
      * left. split; [exact Hr |].
        intros [| k] d Hk Hel; cbn in Hk.
        -- injection Hk as <-. apply Hskip, Hel.
        -- apply (Hall k d Hk Hel).
      * right.
        destruct Hex as (k & d & Hr & Hk & Hel & Hc & Hmin & Hfirst).
        exists (S k), d. rewrite Hr.
        split; [lia |]. split; [exact Hk |].
        split; [exact Hel |]. split; [exact Hc |].
        split.
        -- intros [| j] d' Hj Hel'; cbn in Hj.
           ++ injection Hj as <-. specialize (Hskip Hel'). lia.
           ++ apply (Hmin j d' Hj Hel').
        -- intros [| j] d' Hlt' Hj Hel'; cbn in Hj.
           ++ injection Hj as <-. specialize (Hskip Hel'). lia.
           ++ apply (Hfirst j d'); [lia | assumption | assumption].
Qed.

(** What [closest] returns: the end position when no eligible candidate
    costs less than 2^32 - 1, and otherwise the first position whose
    eligible candidate has the least cost. *)
Lemma closest_spec (dividers : list Z) :
  let r := hal.closest p_source dividers p_target p_divider_rule in
  (r = length dividers /\
   forall k d, nth_error dividers k = Some d -> admits d ->
               UINT32_MAX <= cost d)
  \/
  (exists d,
      nth_error dividers r = Some d /\
      admits d /\ cost d < UINT32_MAX /\
      (forall j d', nth_error dividers j = Some d' -> admits d' ->
                    cost d <= cost d') /\
      (forall j d', (j < r)%nat -> nth_error dividers j = Some d' ->
                    admits d' -> cost d < cost d')).
Proof.
  cbv zeta. unfold hal.closest.
  destruct (closest_loop_spec dividers 0%nat (length dividers) UINT32_MAX)
    as [Hnone | (k & d & Hr & Hk & Hrest)].
  - left. exact Hnone.
  - right. exists d. rewrite Hr. cbn [Nat.add]. split; assumption.
Qed.

End Closest.

(** The worked example of the spec: source 1 MHz, dividers 1, 2, 4, 8, 16,
    target 70 kHz. *)
Example closest_example :
  let src := {| hal.value_hz := 1000000 |} in
  let tgt := {| hal.value_hz := 70000 |} in
  hal.closest src [1; 2; 4; 8; 16] tgt divider_rule.closest = 4%nat /\
  hal.closest src [1; 2; 4; 8; 16] tgt divider_rule.lower = 4%nat /\
  hal.closest src [1; 2; 4; 8; 16] tgt divider_rule.higher = 3%nat /\
  hal.closest src [] tgt divider_rule.closest = 0%nat /\
  hal.closest src [1; 2; 4] tgt divider_rule.lower = 3%nat.
Proof. repeat split; reflexivity. Qed.

(** C1, at the input where the code departs from it: with a source of 0 Hz,
    the single divider 1 and a target of 2^32 - 1 Hz under the rule
    [closest], the only candidate is eligible, so it has the least distance
    among the eligible candidates, yet the search returns the end
    position. *)
Theorem closest_misses_sole_eligible_candidate :
  let src := {| hal.value_hz := 0 |} in
  let tgt := {| hal.value_hz := 4294967295 |} in
  hal.is_applicable tgt divider_rule.closest (hal.div_scalar src 1) = true /\
  hal.cost tgt (hal.div_scalar src 1) = UINT32_MAX /\
  hal.closest src [1] tgt divider_rule.closest = length [1].
Proof. repeat split; reflexivity. Qed.

(** C9: the search never returns the position of a candidate whose distance
    to the target is 2^32 - 1, and when every eligible candidate has that
    distance it returns the end position; this happens with an eligible
    candidate present. *)
Theorem closest_never_selects_maximal_distance :
  (forall (p_source : hal.frequency) (dividers : list Z)
          (p_target : hal.frequency) (p_divider_rule : divider_rule.t) (d : Z),
      nth_error dividers
        (hal.closest p_source dividers p_target p_divider_rule) = Some d ->
      hal.cost p_target (hal.div_scalar p_source d) < UINT32_MAX) /\
  (forall (p_source : hal.frequency) (dividers : list Z)
          (p_target : hal.frequency) (p_divider_rule : divider_rule.t),
      (forall k d, nth_error dividers k = Some d ->
                   hal.is_applicable p_target p_divider_rule
                     (hal.div_scalar p_source d) = true ->
                   hal.cost p_target (hal.div_scalar p_source d) = UINT32_MAX) ->
      hal.closest p_source dividers p_target p_divider_rule = length dividers) /\
  (exists (p_source : hal.frequency) (dividers : list Z)
          (p_target : hal.frequency) (p_divider_rule : divider_rule.t) (d : Z),
      nth_error dividers 0 = Some d /\
      hal.is_applicable p_target p_divider_rule
        (hal.div_scalar p_source d) = true /\
      hal.closest p_source dividers p_target p_divider_rule = length dividers).
Proof.
  split; [| split].
  - intros p_source dividers p_target p_divider_rule d Hsel.
    destruct (closest_spec p_source p_target p_divider_rule dividers)
      as [[Hend _] | (d0 & Hd0 & _ & Hlt & _)].
    + rewrite Hend in Hsel.
      assert (Hnone : nth_error dividers (length dividers) = None)
        by (apply nth_error_None; lia).
      congruence.
    + assert (d0 = d) by congruence. subst d0. exact Hlt.
  - intros p_source dividers p_target p_divider_rule Hall.
    destruct (closest_spec p_source p_target p_divider_rule dividers)
      as [[Hend _] | (d0 & Hd0 & Hel & Hlt & _)].
    + exact Hend.
    + specialize (Hall _ _ Hd0 Hel). unfold cost_of in Hlt. lia.
  - exists {| hal.value_hz := 0 |}, [1], {| hal.value_hz := 4294967295 |},
      divider_rule.closest, 1.
    repeat split; reflexivity.
Qed.

Lemma closest_never_selects_maximal_distance_witness :
  hal.closest {| hal.value_hz := 4294967295 |} [1; 2]
    {| hal.value_hz := 0 |} divider_rule.higher = 1%nat /\
  hal.cost {| hal.value_hz := 0 |}
    (hal.div_scalar {| hal.value_hz := 4294967295 |} 2) < UINT32_MAX /\
  hal.closest {| hal.value_hz := 0 |} [1; 3]
    {| hal.value_hz := 4294967295 |} divider_rule.lower = length [1; 3].
Proof.
  split; [reflexivity |]. split.
  - apply (proj1 closest_never_selects_maximal_distance
             {| hal.value_hz := 4294967295 |} [1; 2]
             {| hal.value_hz := 0 |} divider_rule.higher 2).
    reflexivity.
  - apply (proj1 (proj2 closest_never_selects_maximal_distance)
             {| hal.value_hz := 0 |} [1; 3]
             {| hal.value_hz := 4294967295 |} divider_rule.lower).
    intros [| [| k]] d Hk _; cbn in Hk.
    + injection Hk as <-. reflexivity.
    + injection Hk as <-. reflexivity.
    + destruct k; discriminate Hk.
Defined.

(** ** The driver lifecycle *)

Section DriverFacts.

Context {settings_t derived_t E : Type}.
Context {impl : embed.driver_impl settings_t derived_t E}.

(** After [initialize] the staged settings are as the hook left them. *)
Lemma initialize_staged (d : embed.driver settings_t derived_t) :
  embed.settings (snd (embed.initialize d))
  = embed.hook_settings (embed.driver_initialize d).
Proof.
  unfold embed.initialize.
  destruct (embed.hook_result (embed.driver_initialize d)) as [u | e];
    reflexivity.
Qed.

(** C7: when [driver_initialize] fails, [initialize] returns that very
    failure, [is_initialized] remains false on a driver that was not
    initialized (and keeps its value altogether unless the hook itself
    called [set_as_uninitialized]), the committed settings do not change,
    and the staged settings are as the hook left them. *)
Theorem initialize_failure_commits_nothing
    (d : embed.driver settings_t derived_t) (e : E) :
  embed.hook_result (embed.driver_initialize d) = Err e ->
  let r := fst (embed.initialize d) in
  let d' := snd (embed.initialize d) in
  r = Err e /\
  (embed.is_initialized d = false -> embed.is_initialized d' = false) /\
  (embed.hook_set_as_uninitialized (embed.driver_initialize d) = false ->
   embed.is_initialized d' = embed.is_initialized d) /\
  embed.initialized_settings d' = embed.initialized_settings d /\
  embed.settings d' = embed.hook_settings (embed.driver_initialize d).
Proof.
  intros Hfail. cbv zeta. unfold embed.initialize. rewrite Hfail.
  cbn [fst snd]. unfold embed.is_initialized, embed.initialized_settings,
    embed.settings, embed.after_hook; cbn [embed.m_initialized
    embed.m_initialized_settings embed.m_settings].
  split; [reflexivity |]. split.
  - intros Hflag. rewrite Hflag.
    destruct (embed.hook_set_as_uninitialized (embed.driver_initialize d));
      reflexivity.
  - split; [intros Hkept; rewrite Hkept; reflexivity |].
    split; reflexivity.
Qed.

(** C8, as the code has it: a fresh driver is not initialized; a successful
    [initialize] leaves it initialized with the committed settings equal to
    the staged settings as they are when [driver_initialize] returns, which
    are the settings staged at the call whenever the hook did not write
    them; [set_as_uninitialized] then clears the flag and leaves committed
    and staged settings as they were. *)
Theorem driver_lifecycle :
  (forall (default_settings : settings_t) (derived : derived_t),
      embed.is_initialized (embed.construct default_settings derived)
      = false) /\
  (forall (d d' : embed.driver settings_t derived_t),
      embed.initialize d = (Ok tt, d') ->
      embed.is_initialized d' = true /\
      embed.initialized_settings d'
      = embed.hook_settings (embed.driver_initialize d) /\
      embed.initialized_settings d' = embed.settings d' /\
      (embed.hook_settings (embed.driver_initialize d) = embed.settings d ->
       embed.initialized_settings d' = embed.settings d) /\
      let d'' := embed.set_as_uninitialized d' in
      embed.is_initialized d'' = false /\
      embed.initialized_settings d'' = embed.initialized_settings d') /\
  (forall (d : embed.driver settings_t derived_t),
      embed.is_initialized (embed.set_as_uninitialized d) = false /\
      embed.initialized_settings (embed.set_as_uninitialized d)
      = embed.initialized_settings d /\
      embed.settings (embed.set_as_uninitialized d) = embed.settings d).
Proof.
  split; [| split].
  - reflexivity.
  - intros d d'. unfold embed.initialize.
    destruct (embed.hook_result (embed.driver_initialize d)) as [u | e];
      intros Hinit; [| discriminate Hinit].
    injection Hinit as <-. cbn.
    split; [reflexivity |]. split; [reflexivity |]. split; [reflexivity |].
    split; [intros Hsame; exact Hsame |]. split; reflexivity.
  - intros d. repeat split.
Qed.

End DriverFacts.

Lemma initialize_failure_commits_nothing_witness :
  let d := embed.set_settings 0 serial.fresh in
  fst (embed.initialize d) = Err serial.invalid_baud_rate /\
  embed.is_initialized (snd (embed.initialize d)) = false /\
  embed.initialized_settings (snd (embed.initialize d)) = 9600.
Proof.
  cbv zeta.
  assert (Hfail :
    embed.hook_result
      (embed.driver_initialize (embed.set_settings 0 serial.fresh))
    = Err serial.invalid_baud_rate) by reflexivity.
  destruct (initialize_failure_commits_nothing
              (embed.set_settings 0 serial.fresh)
              serial.invalid_baud_rate Hfail)
    as (Hr & Hflag & _ & Hcommitted & _).
  split; [exact Hr |]. split; [apply Hflag; reflexivity |].
  rewrite Hcommitted. reflexivity.
Defined.

Lemma driver_lifecycle_witness :
  let d := embed.set_settings 115200 serial.fresh in
  let d' := snd (embed.initialize d) in
  embed.is_initialized d' = true /\
  embed.initialized_settings d' = 115200 /\
  embed.is_initialized (embed.set_as_uninitialized d') = false /\
  embed.initialized_settings (embed.set_as_uninitialized d') = 115200.
Proof.
  cbv zeta.
  assert (Hinit :
    embed.initialize (embed.set_settings 115200 serial.fresh)
    = (Ok tt, snd (embed.initialize (embed.set_settings 115200 serial.fresh))))
    by reflexivity.
  destruct (proj1 (proj2 driver_lifecycle) _ _ Hinit)
    as (Hflag & _ & _ & Hcommitted & Hflag' & Hcommitted').
  split; [exact Hflag |].
  split; [apply Hcommitted; reflexivity |].
  split; [exact Hflag' |].
  rewrite Hcommitted'. apply Hcommitted. reflexivity.
Defined.

(** C8 as it was stated fails for a driver whose hook writes the staged
    settings: with 1000000 baud staged, the clamping driver initializes
    successfully and commits 115200, not the settings staged at the
    call. *)
Lemma driver_lifecycle_counterexample :
  let d := embed.set_settings 1000000 clamped_serial.fresh in
  let d' := snd (embed.initialize d) in
  fst (embed.initialize d) = Ok tt /\
  embed.is_initialized d' = true /\
  embed.settings d = 1000000 /\
  embed.initialized_settings d' = 115200 /\
  embed.initialized_settings d' <> embed.settings d.
Proof.
  cbv zeta. repeat split; try reflexivity. discriminate.
Qed.

(** * Further properties of the code *)

(** ** More on the divider search *)

(** X1: whenever some eligible candidate lies at a distance below 2^32 - 1
    from the target, [closest] returns a position of the sequence; the
    candidate there is eligible, no eligible candidate is nearer to the
    target, and every eligible candidate before it is strictly farther. *)
Theorem closest_finds_first_least_cost (p_source : hal.frequency)
    (dividers : list Z) (p_target : hal.frequency)
    (p_divider_rule : divider_rule.t) :
  (exists k d, nth_error dividers k = Some d /\
               eligible p_source p_target p_divider_rule d /\
               cost_of p_source p_target d < UINT32_MAX) ->
  let r := hal.closest p_source dividers p_target p_divider_rule in
  exists d,
    nth_error dividers r = Some d /\
    eligible p_source p_target p_divider_rule d /\
    (forall j d', nth_error dividers j = Some d' ->
                  eligible p_source p_target p_divider_rule d' ->
                  cost_of p_source p_target d <= cost_of p_source p_target d') /\
    (forall j d', (j < r)%nat -> nth_error dividers j = Some d' ->
                  eligible p_source p_target p_divider_rule d' ->
                  cost_of p_source p_target d < cost_of p_source p_target d').
Proof.
  intros (k & d & Hk & Hel & Hlt). cbv zeta.
  destruct (closest_spec p_source p_target p_divider_rule dividers)
    as [[_ Hall] | (d0 & Hd0 & Hel0 & _ & Hmin & Hfirst)].
  - specialize (Hall k d Hk Hel). lia.
  - exists d0. repeat split; assumption.
Qed.

Lemma closest_finds_first_least_cost_witness :
  exists d,
    nth_error [1; 2; 4; 8; 16]
      (hal.closest {| hal.value_hz := 1000000 |} [1; 2; 4; 8; 16]
         {| hal.value_hz := 70000 |} divider_rule.higher) = Some d /\
    eligible {| hal.value_hz := 1000000 |} {| hal.value_hz := 70000 |}
      divider_rule.higher d.
Proof.
  destruct (closest_finds_first_least_cost {| hal.value_hz := 1000000 |}
              [1; 2; 4; 8; 16] {| hal.value_hz := 70000 |}
              divider_rule.higher) as (d & Hd & Hel & _).
  - exists 0%nat, 1. split; [reflexivity |]. split; [reflexivity |].
    vm_compute. reflexivity.
  - exists d. split; assumption.
Defined.

(** X2: the position [closest] returns never lies past the end of the
    sequence, and the divider at a returned position obeys the rule: under
    [lower] it gives a frequency at most the target, under [higher] one at
    least the target. *)
Theorem closest_respects_rule (p_source : hal.frequency)
    (dividers : list Z) (p_target : hal.frequency)
    (p_divider_rule : divider_rule.t) :
  let r := hal.closest p_source dividers p_target p_divider_rule in
  (r <= length dividers)%nat /\
  forall d, nth_error dividers r = Some d ->
    match p_divider_rule with
    | divider_rule.lower =>
        hal.value_hz (hal.div_scalar p_source d) <= hal.value_hz p_target
    | divider_rule.higher =>
        hal.value_hz p_target <= hal.value_hz (hal.div_scalar p_source d)
    | divider_rule.closest => True
    end.
Proof.
  cbv zeta.
  destruct (closest_spec p_source p_target p_divider_rule dividers)
    as [[Hend _] | (d0 & Hd0 & Hel0 & _)].
  - split; [lia |]. intros d Hd. rewrite Hend in Hd.
    assert (Hnone : nth_error dividers (length dividers) = None)
      by (apply nth_error_None; lia).
    congruence.
  - split.
    + apply Nat.lt_le_incl. apply nth_error_Some. congruence.
    + intros d Hd. assert (d0 = d) by congruence. subst d0.
      unfold eligible, hal.is_applicable in Hel0.
      destruct p_divider_rule; [| | exact I].
      * unfold hal.frequency_geb in Hel0. apply Z.geb_le in Hel0. exact Hel0.
      * unfold hal.frequency_leb in Hel0. apply Z.leb_le in Hel0. exact Hel0.
Qed.

Lemma closest_respects_rule_witness :
  hal.value_hz (hal.div_scalar {| hal.value_hz := 1000000 |} 16) <= 70000.
Proof.
  apply (proj2 (closest_respects_rule {| hal.value_hz := 1000000 |}
                  [1; 2; 4; 8; 16] {| hal.value_hz := 70000 |}
                  divider_rule.lower) 16).
  reflexivity.
Defined.

(** A target strictly between 0 and 2^32 - 1 Hz is at a distance below
    2^32 - 1 from every 32-bit candidate. *)
Lemma cost_below_maximum (p_target p_candidate : hal.frequency) :
  0 < hal.value_hz p_target < UINT32_MAX ->
  is_u32 (hal.value_hz p_candidate) ->
  hal.cost p_target p_candidate < UINT32_MAX.
Proof.
  intros Ht Hc. rewrite cost_is_distance by (unfold is_u32 in *; lia || assumption).
  unfold is_u32 in Hc. lia.
Qed.

(** X3: for a 32-bit source, unsigned dividers and a target strictly
    between 0 and 2^32 - 1 Hz, [closest] returns the end position exactly
    when no candidate is eligible; under the rule [closest] it therefore
    returns a position of every non-empty sequence. *)
Theorem closest_end_iff_none_eligible (p_source : hal.frequency)
    (dividers : list Z) (p_target : hal.frequency)
    (p_divider_rule : divider_rule.t) :
  is_u32 (hal.value_hz p_source) ->
  Forall (fun d => 0 <= d) dividers ->
  0 < hal.value_hz p_target < UINT32_MAX ->
  (hal.closest p_source dividers p_target p_divider_rule = length dividers <->
   forall k d, nth_error dividers k = Some d ->
               ~ eligible p_source p_target p_divider_rule d) /\
  (p_divider_rule = divider_rule.closest -> dividers <> [] ->
   (hal.closest p_source dividers p_target p_divider_rule
    < length dividers)%nat).
Proof.
  intros Hsrc Hdiv Htgt.
  assert (Hcost : forall k d, nth_error dividers k = Some d ->
                              cost_of p_source p_target d < UINT32_MAX).
  { intros k d Hk. unfold cost_of. apply cost_below_maximum; [assumption |].
    unfold hal.div_scalar; cbn [hal.value_hz].
    apply rounding_division_u32; [assumption |].
    rewrite Forall_forall in Hdiv. apply Hdiv. eapply nth_error_In; eassumption. }
  assert (Hiff :
    hal.closest p_source dividers p_target p_divider_rule = length dividers <->
    forall k d, nth_error dividers k = Some d ->
                ~ eligible p_source p_target p_divider_rule d).
  { destruct (closest_spec p_source p_target p_divider_rule dividers)
      as [[Hend Hall] | (d0 & Hd0 & Hel0 & _)].
    - split; [| intros _; exact Hend].
      intros _ k d Hk Hel. specialize (Hall k d Hk Hel).
      specialize (Hcost k d Hk). lia.
    - split.
      + intros Hend. rewrite Hend in Hd0.
        assert (Hnone : nth_error dividers (length dividers) = None)
          by (apply nth_error_None; lia).
        congruence.
      + intros Hnone. exfalso. exact (Hnone _ _ Hd0 Hel0). }
  split; [exact Hiff |].
  intros -> Hne.
  pose proof (proj1 (closest_respects_rule p_source dividers p_target
                       divider_rule.closest)) as Hle.
  cbv zeta in Hle.
  destruct (Nat.eq_dec
              (hal.closest p_source dividers p_target divider_rule.closest)
              (length dividers)) as [Heq | Hneq]; [| lia].
  exfalso. destruct dividers as [| a rest]; [congruence |].
  apply (proj1 Hiff Heq 0%nat a eq_refl). reflexivity.
Qed.

Lemma closest_end_iff_none_eligible_witness :
  let dividers := [1; 2; 4] in
  (hal.closest {| hal.value_hz := 1000000 |} dividers
     {| hal.value_hz := 70000 |} divider_rule.closest < length dividers)%nat.
Proof.
  apply (proj2 (closest_end_iff_none_eligible {| hal.value_hz := 1000000 |}
                  [1; 2; 4] {| hal.value_hz := 70000 |} divider_rule.closest
                  ltac:(unfold is_u32, UINT32_MAX; simpl; lia)
                  ltac:(repeat constructor; lia)
                  ltac:(unfold UINT32_MAX; simpl; lia)));
    [reflexivity | discriminate].
Defined.

(** ** More on duty cycles *)

(** X4: the denominator that the conversion to percent hands to
    [percent::from_ratio] is zero only for the duty cycle with no cycles at
    all. *)
Theorem to_percent_zero_denominator (d : hal.duty_cycle) :
  duty_cycle_wf d ->
  (snd (hal.ratio_operands d) = 0 <-> hal.high d = 0 /\ hal.low d = 0).
Proof.
  intros Hwf. pose proof Hwf as [Hh Hl]. unfold is_u32 in Hh, Hl.
  destruct (Z_le_gt_dec (hal.high d + hal.low d) UINT32_MAX) as [Hfit | Hover].
  - rewrite (ratio_operands_fits d Hwf Hfit); cbn [snd]. lia.
  - rewrite (ratio_operands_halved d Hwf) by lia; cbn [snd].
    unfold UINT32_MAX in *. split; intros H; div_lia.
Qed.

Lemma to_percent_zero_denominator_witness :
  snd (hal.ratio_operands {| hal.high := 0; hal.low := 0 |}) = 0.
Proof.
  apply (to_percent_zero_denominator {| hal.high := 0; hal.low := 0 |}).
  - unfold duty_cycle_wf, is_u32, UINT32_MAX; simpl; lia.
  - split; reflexivity.
Defined.

(** Within the contract the two 32-bit stores of [calculate_duty_cycle] lose
    nothing. *)
Lemma calculate_duty_cycle_fields (p_cycles : Z) (p_percent : percent.t) :
  is_u32 p_cycles -> percent.valid p_percent ->
  hal.calculate_duty_cycle p_cycles p_percent
  = {| hal.high := percent.scale p_cycles p_percent;
       hal.low := p_cycles - percent.scale p_cycles p_percent |}.
Proof.
  intros Hc Hp. pose proof Hc as [Hc0 Hc1].
  pose proof (scale_bounds p_cycles p_percent Hc0 Hp) as Hs.
  unfold hal.calculate_duty_cycle.
  rewrite (to_u32_small (percent.scale p_cycles p_percent))
    by (unfold is_u32; lia).
  rewrite to_u32_small by (unfold is_u32; lia).
  reflexivity.
Qed.

(** X5: splitting a positive 32-bit cycle count by a percent and converting
    the duty cycle back gives a percent within 1 / cycles of the one put
    in. *)
Theorem percent_round_trip_error (p_cycles : Z) (p_percent : percent.t) :
  is_u32 p_cycles -> 0 < p_cycles -> percent.valid p_percent ->
  (Qabs (percent.factor
           (hal.to_percent (hal.calculate_duty_cycle p_cycles p_percent))
         - percent.factor p_percent)
   <= 1 # Z.to_pos p_cycles)%Q.
Proof.
  intros Hc Hpos Hp. pose proof Hc as [Hc0 Hc1].
  pose proof (scale_bounds p_cycles p_percent Hc0 Hp) as Hs.
  rewrite calculate_duty_cycle_fields by assumption.
  set (h := percent.scale p_cycles p_percent) in *.
  assert (Hwf : duty_cycle_wf {| hal.high := h; hal.low := p_cycles - h |})
    by (unfold duty_cycle_wf, is_u32; cbn [hal.high hal.low]; lia).
  rewrite to_percent_operands, (ratio_operands_fits _ Hwf)
    by (cbn [hal.high hal.low]; lia).
  cbn [fst snd hal.high hal.low].
  replace (h + (p_cycles - h)) with p_cycles by lia.
  rewrite (from_ratio_factor h p_cycles) by lia.
  destruct p_percent as [[a b]]. cbn [percent.factor].
  assert (Hh : h = (p_cycles * a) / Z.pos b)
    by (apply scale_fraction; reflexivity).
  destruct Hp as [Hlo Hhi]. cbn [percent.factor] in Hlo, Hhi.
  unfold Qle in Hlo, Hhi; cbn [Qnum Qden] in Hlo, Hhi.
  pose proof (Z.div_mod (p_cycles * a) (Z.pos b) ltac:(lia)) as Hdm.
  pose proof (Z.mod_pos_bound (p_cycles * a) (Z.pos b) ltac:(lia)) as Hm.
  rewrite <- Hh in Hdm. clearbody h.
  apply Qabs_Qle_condition.
  unfold Qle, Qminus, Qplus, Qopp; cbn [Qnum Qden].
  rewrite !Pos2Z.inj_mul, !Z2Pos.id by lia.
  split; nia.
Qed.

Lemma percent_round_trip_error_witness :
  (Qabs (percent.factor
           (hal.to_percent
              (hal.calculate_duty_cycle 10 (percent.from_ratio 1 3)))
         - percent.factor (percent.from_ratio 1 3))
   <= 1 # 10)%Q.
Proof.
  apply (percent_round_trip_error 10 (percent.from_ratio 1 3)).
  - unfold is_u32, UINT32_MAX; lia.
  - lia.
  - apply from_ratio_valid.
Defined.

(** X6: a duty cycle returned by the duration overload has 32-bit fields
    that add up to the cycle count [cycles_per] computed, which did not
    exceed 2^32 - 1. *)
Theorem calculate_duty_cycle_for_sum (period_num period_den : Z)
    (p_source_clock : hal.frequency) (p_duration : hal.time_duration)
    (p_percent : percent.t) (d : hal.duty_cycle) :
  percent.valid p_percent ->
  hal.calculate_duty_cycle_for period_num period_den
    p_source_clock p_duration p_percent = Ok d ->
  let cycle_count :=
    hal.cycles_per period_num period_den p_source_clock p_duration in
  duty_cycle_wf d /\
  hal.high d + hal.low d = cycle_count /\
  0 <= cycle_count <= UINT32_MAX.
Proof.
  intros Hp. cbv zeta. unfold hal.calculate_duty_cycle_for.
  pose proof (cycles_per_is_s64 period_num period_den p_source_clock p_duration)
    as Hrange.
  set (c := hal.cycles_per period_num period_den p_source_clock p_duration) in *.
  destruct (Z.gtb_spec (to_u64 c) UINT32_MAX) as [Hgt | Hle];
    [discriminate |].
  destruct (to_u64_of_s64_small c Hrange Hle) as [Hpos Heq].
  rewrite Heq. rewrite to_u32_small by (unfold is_u32; lia).
  rewrite calculate_duty_cycle_fields by (unfold is_u32; lia || assumption).
  intros Hd. injection Hd as <-.
  pose proof (scale_bounds c p_percent Hpos Hp) as Hs.
  unfold duty_cycle_wf, is_u32; cbn [hal.high hal.low]. lia.
Qed.

Lemma calculate_duty_cycle_for_sum_witness :
  let d := hal.calculate_duty_cycle 5 (percent.from_ratio 1 2) in
  hal.high d + hal.low d
  = hal.cycles_per 1 1000000000
      {| hal.value_hz := 1000000 |} {| hal.count := -5000 |}.
Proof.
  cbv zeta.
  apply (calculate_duty_cycle_for_sum 1 1000000000
           {| hal.value_hz := 1000000 |} {| hal.count := -5000 |}
           (percent.from_ratio 1 2)
           (hal.calculate_duty_cycle 5 (percent.from_ratio 1 2))
           (from_ratio_valid 1 2)).
  reflexivity.
Defined.

Lemma scale_zero (p : percent.t) : percent.scale 0 p = 0.
Proof.
  destruct p as [[a b]].
  unfold percent.scale, Qfloor, Qmult, inject_Z; cbn [Qnum Qden percent.factor].
  apply Z.div_0_l. lia.
Qed.

Lemma rounding_division_zero (d : Z) : math.rounding_division 0 d = 0.
Proof. unfold math.rounding_division. destruct (d =? 0); reflexivity. Qed.

(** X7: a duration of zero, or a clock of 0 Hz, is not a failure of the
    duration overload: for every period and every percent it gives the duty
    cycle of no cycles. *)
Theorem calculate_duty_cycle_for_zero (period_num period_den : Z)
    (p_source_clock : hal.frequency) (p_duration : hal.time_duration)
    (p_percent : percent.t) :
  hal.count p_duration = 0 \/ hal.value_hz p_source_clock = 0 ->
  hal.cycles_per period_num period_den p_source_clock p_duration = 0 /\
  hal.calculate_duty_cycle_for period_num period_den
    p_source_clock p_duration p_percent
  = Ok {| hal.high := 0; hal.low := 0 |}.
Proof.
  intros Hzero.
  assert (Hc : hal.cycles_per period_num period_den p_source_clock p_duration
               = 0).
  { unfold hal.cycles_per, math.absolute_value.
    assert (Hprod : to_s64 (to_s64 (Z.abs (hal.count p_duration))
                            * hal.value_hz p_source_clock) = 0).
    { destruct Hzero as [-> | ->].
      - reflexivity.
      - rewrite Z.mul_0_r. reflexivity. }
    rewrite Hprod. cbn [Z.mul].
    change (to_s64 0) with 0. rewrite rounding_division_zero. reflexivity. }
  split; [exact Hc |].
  unfold hal.calculate_duty_cycle_for. rewrite Hc.
  change (to_u64 0 >? UINT32_MAX) with false. cbv iota.
  change (to_u32 (to_u64 0)) with 0.
  unfold hal.calculate_duty_cycle. rewrite scale_zero. reflexivity.
Qed.

Lemma calculate_duty_cycle_for_zero_witness :
  hal.calculate_duty_cycle_for 1 1000000000
    {| hal.value_hz := 0 |} {| hal.count := 1000 |} (percent.from_ratio 1 2)
  = Ok {| hal.high := 0; hal.low := 0 |}.
Proof.
  apply (calculate_duty_cycle_for_zero 1 1000000000
           {| hal.value_hz := 0 |} {| hal.count := 1000 |}
           (percent.from_ratio 1 2)).
  right. reflexivity.
Defined.

(** ** Cycles, durations and wavelengths *)

Lemma rounding_division_unique (n d q : Z) :
  0 <= n -> 0 < d ->
  2 * d * q <= 2 * n + d < 2 * d * (q + 1) ->
  math.rounding_division n d = q.
Proof.
  intros Hn Hd Hq. rewrite rounding_division_nonneg by assumption.
  symmetry. apply (Z.div_unique_pos _ _ q (2 * n + d - 2 * d * q)); lia.
Qed.

Lemma rounding_division_abs (n d : Z) :
  0 < d ->
  Z.abs (math.rounding_division n d) = math.rounding_division (Z.abs n) d.
Proof.
  intros Hd. rewrite (rounding_division_nonneg (Z.abs n) d) by lia.
  unfold math.rounding_division.
  destruct (Z.eqb_spec d 0) as [Hz | _]; [lia |].
  rewrite (Z.sgn_pos d), (Z.abs_eq d) by lia.
  assert (Hq : 0 <= (2 * Z.abs n + d) / (2 * d)) by (apply Z.div_pos; lia).
  destruct (Z.lt_trichotomy n 0) as [Hneg | [-> | Hpos]].
  - rewrite (Z.sgn_neg n) by assumption. lia.
  - change (Z.abs 0) with 0. replace (2 * 0 + d) with d by lia.
    rewrite (Z.div_small d (2 * d)) by lia. reflexivity.
  - rewrite (Z.sgn_pos n) by assumption. lia.
Qed.

(** X8: as long as |duration| * frequency * period_num stays below 2^63,
    [cycles_per] is not negative, is the same for a duration and its
    negation, and is the nearest integer to the exact number of cycles
    |duration| * frequency * period_num / period_den. *)
Theorem cycles_per_accuracy (period_num period_den : Z)
    (p_source : hal.frequency) (p_duration : hal.time_duration) :
  0 <= hal.value_hz p_source -> 0 <= period_num -> 0 < period_den ->
  Z.abs (hal.count p_duration) < 2 ^ 63 ->
  Z.abs (hal.count p_duration) * hal.value_hz p_source < 2 ^ 63 ->
  Z.abs (hal.count p_duration) * hal.value_hz p_source * period_num < 2 ^ 63 ->
  let cycles := hal.cycles_per period_num period_den p_source p_duration in
  let scaled :=
    Z.abs (hal.count p_duration) * hal.value_hz p_source * period_num in
  0 <= cycles <= scaled /\
  2 * Z.abs (cycles * period_den - scaled) <= period_den /\
  hal.cycles_per period_num period_den p_source
    {| hal.count := - hal.count p_duration |} = cycles.
Proof.
  intros Hhz Hnum Hden H1 H2 H3. cbv zeta.
  rewrite (cycles_per_exact period_num period_den p_source p_duration)
    by assumption.
  rewrite (cycles_per_exact period_num period_den p_source
             {| hal.count := - hal.count p_duration |})
    by (cbn [hal.count]; rewrite ?Z.abs_opp; assumption).
  cbn [hal.count]. rewrite Z.abs_opp.
  destruct (rounding_division_nearest
              (Z.abs (hal.count p_duration) * hal.value_hz p_source * period_num)
              period_den) as [Hq Hnear]; [nia | assumption |].
  split; [exact Hq |]. split; [exact Hnear | reflexivity].
Qed.

Lemma cycles_per_accuracy_witness :
  0 <= hal.cycles_per 1 1000000000
         {| hal.value_hz := 48000000 |} {| hal.count := -1500 |} <= 72000000000.
Proof.
  apply (cycles_per_accuracy 1 1000000000
           {| hal.value_hz := 48000000 |} {| hal.count := -1500 |});
    cbn [hal.value_hz hal.count]; lia.
Defined.

(** X9: for a clock of at most 1 GHz (and not 0 Hz) and a 32-bit signed
    cycle count, the nanoseconds [duration_from_cycles] gives are turned
    back by [cycles_per], taken at the nanosecond period, into the magnitude
    of that cycle count. *)
Theorem duration_from_cycles_round_trip (p_source : hal.frequency)
    (p_cycles : Z) :
  0 < hal.value_hz p_source <= 1000000000 ->
  - 2 ^ 31 <= p_cycles < 2 ^ 31 ->
  hal.cycles_per 1 1000000000 p_source
    (hal_time.duration_from_cycles p_source p_cycles)
  = Z.abs p_cycles.
Proof.
  intros Hhz Hc.
  set (hz := hal.value_hz p_source) in *.
  set (w := math.rounding_division (Z.abs p_cycles * 1000000000) hz).
  destruct (rounding_division_nearest (Z.abs p_cycles * 1000000000) hz)
    as [Hw Hnear]; [lia | lia |]. fold w in Hw, Hnear.
  assert (Hcount :
    Z.abs (hal.count (hal_time.duration_from_cycles p_source p_cycles)) = w).
  { unfold hal_time.duration_from_cycles; cbn [hal.count]. fold hz.
    rewrite (to_s64_small (p_cycles * 1000000000)) by (unfold is_s64; lia).
    rewrite (to_s64_small (hz * 1)) by (unfold is_s64; lia).
    rewrite Z.mul_1_r.
    pose proof (rounding_division_abs (p_cycles * 1000000000) hz
                  ltac:(lia)) as Habs.
    rewrite Z.abs_mul in Habs. change (Z.abs 1000000000) with 1000000000 in Habs.
    fold w in Habs.
    rewrite to_s64_small by (unfold is_s64; lia).
    exact Habs. }
  assert (Hprod : 0 <= w * hz) by nia.
  assert (Hup : 2 * (w * hz) <= 2 * (Z.abs p_cycles * 1000000000) + hz) by lia.
  assert (Hlo : 2 * (Z.abs p_cycles * 1000000000) - hz <= 2 * (w * hz)) by lia.
  rewrite cycles_per_exact; fold hz; rewrite ?Hcount; try lia.
  rewrite Z.mul_1_r.
  apply rounding_division_unique; [assumption | lia |].
  destruct (Z.eq_dec hz 1000000000) as [Heq | Hneq].
  - rewrite Heq in *. lia.
  - lia.
Qed.

Lemma duration_from_cycles_round_trip_witness :
  hal.cycles_per 1 1000000000 {| hal.value_hz := 48000000 |}
    (hal_time.duration_from_cycles {| hal.value_hz := 48000000 |} (-1000))
  = Z.abs (-1000).
Proof.
  apply (duration_from_cycles_round_trip {| hal.value_hz := 48000000 |} (-1000));
    cbn [hal.value_hz]; lia.
Defined.

(** X10: for a period of 1 / period_den seconds that passes the two static
    assertions and a clock that is not 0 Hz, [wavelength] is the nearest
    number of periods to period_den / frequency; when the frequency is at
    most period_den, [cycles_per] at that period counts exactly one cycle in
    one wavelength. *)
Theorem wavelength_one_cycle (period_den : Z) (p_source : hal.frequency) :
  0 < period_den <= 1000000000000000000 ->
  0 < hal.value_hz p_source <= UINT32_MAX ->
  let w := hal_time.wavelength period_den p_source in
  0 <= w <= period_den /\
  2 * Z.abs (w * hal.value_hz p_source - period_den) <= hal.value_hz p_source /\
  (hal.value_hz p_source <= period_den ->
   hal.cycles_per 1 period_den p_source {| hal.count := w |} = 1).
Proof.
  intros Hden Hhz. cbv zeta. unfold UINT32_MAX in Hhz.
  set (hz := hal.value_hz p_source) in *.
  destruct (rounding_division_nearest period_den hz) as [Hw Hnear]; [lia | lia |].
  assert (Heq : hal_time.wavelength period_den p_source
                = math.rounding_division period_den hz).
  { unfold hal_time.wavelength. fold hz.
    rewrite (to_u64_small period_den), (to_u64_small hz) by lia.
    rewrite to_u64_small by lia.
    apply to_s64_small. unfold is_s64. lia. }
  rewrite Heq. set (w := math.rounding_division period_den hz) in *.
  split; [exact Hw |]. split; [exact Hnear |].
  intros Hle.
  assert (Hprod : 0 <= w * hz) by nia.
  rewrite cycles_per_exact; fold hz; cbn [hal.count];
    rewrite ?(Z.abs_eq w) by lia; try lia.
  rewrite Z.mul_1_r.
  apply rounding_division_unique; [assumption | lia |].
  destruct (Z.eq_dec hz period_den) as [Hsame | Hdiff].
  - assert (Hone : w = 1).
    { assert (Hcase : w <= 0 \/ w = 1 \/ 2 <= w) by lia.
      destruct Hcase as [Hc | [Hc | Hc]]; [nia | exact Hc | nia]. }
    rewrite Hone. lia.
  - lia.
Qed.

Lemma wavelength_one_cycle_witness :
  hal.cycles_per 1 1000000000 {| hal.value_hz := 48000000 |}
    {| hal.count := hal_time.wavelength 1000000000
                      {| hal.value_hz := 48000000 |} |} = 1.
Proof.
  apply (wavelength_one_cycle 1000000000 {| hal.value_hz := 48000000 |});
    unfold UINT32_MAX; cbn [hal.value_hz]; lia.
Defined.

(** ** Frequency literals and scaling *)

Lemma to_u32_of_u64 (z : Z) : to_u32 (to_u64 z) = to_u32 z.
Proof.
  unfold to_u32, to_u64.
  apply Z.mod_mod_divide. exists (2 ^ 32). reflexivity.
Qed.

Lemma to_u32_exact_iff (z : Z) : 0 <= z -> (to_u32 z = z <-> z <= UINT32_MAX).
Proof.
  intros Hz. unfold to_u32, UINT32_MAX. split; intros H.
  - pose proof (Z.mod_pos_bound z (2 ^ 32) eq_refl). lia.
  - apply Z.mod_small. lia.
Qed.

(** X11: the literal suffixes [_Hz], [_kHz] and [_MHz] give the written
    number of hertz reduced modulo 2^32: the frequency is the written one
    exactly when it fits 32 bits, and a larger one is narrowed without any
    diagnostic. *)
Theorem literals_exact_iff_fit (p_value : Z) :
  0 <= p_value < 2 ^ 64 ->
  (hal.value_hz (literals.Hz p_value) = p_value mod 2 ^ 32 /\
   hal.value_hz (literals.kHz p_value) = (p_value * 1000) mod 2 ^ 32 /\
   hal.value_hz (literals.MHz p_value) = (p_value * 1000000) mod 2 ^ 32) /\
  (hal.value_hz (literals.Hz p_value) = p_value <->
     p_value <= UINT32_MAX) /\
  (hal.value_hz (literals.kHz p_value) = p_value * 1000 <->
     p_value * 1000 <= UINT32_MAX) /\
  (hal.value_hz (literals.MHz p_value) = p_value * 1000000 <->
     p_value * 1000000 <= UINT32_MAX).
Proof.
  intros Hv. unfold literals.Hz, literals.kHz, literals.MHz; cbn [hal.value_hz].
  rewrite !to_u32_of_u64.
  split; [repeat split |].
  split; [| split]; apply to_u32_exact_iff; lia.
Qed.

Lemma literals_exact_iff_fit_witness :
  hal.value_hz (literals.MHz 42) = 42000000 /\
  hal.value_hz (literals.kHz 4294968) = 704.
Proof.
  destruct (literals_exact_iff_fit 42 ltac:(lia)) as (_ & _ & _ & Hexact).
  destruct (literals_exact_iff_fit 4294968 ltac:(lia)) as ((_ & Hwrap & _) & _).
  split.
  - apply Hexact. unfold UINT32_MAX. lia.
  - rewrite Hwrap. reflexivity.
Defined.

(** X12: when scaling a frequency up by a non-zero scalar succeeds, scaling
    the result down by the same scalar gives the frequency back. *)
Theorem mul_then_div_scalar (f g : hal.frequency) (s : Z) :
  0 <= hal.value_hz f -> 0 < s ->
  hal.mul_scalar f s = Ok g ->
  hal.div_scalar g s = f /\ hal.value_hz g <= UINT32_MAX.
Proof.
  intros Hf Hs. destruct f as [hz]. cbn [hal.value_hz] in *.
  unfold hal.mul_scalar, math.multiply, leaf_check; cbn [hal.value_hz].
  destruct (Z.leb_spec (hz * s) UINT32_MAX) as [Hle | Hgt];
    [| discriminate].
  intros Hg. injection Hg as <-.
  unfold hal.div_scalar; cbn [hal.value_hz].
  split; [| exact Hle]. f_equal.
  apply rounding_division_unique; nia.
Qed.

Lemma mul_then_div_scalar_witness :
  hal.div_scalar {| hal.value_hz := 48000 * 1000 |} 1000
  = {| hal.value_hz := 48000 |}.
Proof.
  apply (mul_then_div_scalar {| hal.value_hz := 48000 |}
           {| hal.value_hz := 48000 * 1000 |} 1000).
  - cbn [hal.value_hz]. lia.
  - lia.
  - reflexivity.
Defined.

(** ** The driver over whole programs *)

Section LifecycleFacts.

Context {settings_t derived_t E : Type}.
Context {impl : embed.driver_impl settings_t derived_t E}.

Variable default_settings : settings_t.

Local Abbreviation reachable_ok := (lifecycle.reachable_ok default_settings).

Lemma step_keeps_reachable_ok (d : embed.driver settings_t derived_t)
    (o : lifecycle.op settings_t) :
  reachable_ok d -> reachable_ok (lifecycle.step d o).
Proof.
  unfold lifecycle.reachable_ok. intros [Hflag Hcommitted].
  destruct o as [| | s]; cbn [lifecycle.step].
  - unfold embed.initialize.
    destruct (embed.hook_result (embed.driver_initialize d)) as [u | e]
      eqn:Hhook; cbn [snd].
    + assert (Hacc : lifecycle.accepted
                       (embed.hook_settings (embed.driver_initialize d))).
      { exists d. split; [rewrite Hhook; destruct u | ]; reflexivity. }
      split; [intros _; exact Hacc | right; exact Hacc].
    + unfold embed.is_initialized, embed.initialized_settings, embed.after_hook
        in *; cbn [embed.m_initialized embed.m_initialized_settings].
      split; [| exact Hcommitted].
      destruct (embed.hook_set_as_uninitialized (embed.driver_initialize d));
        [discriminate | exact Hflag].
  - split; [discriminate | exact Hcommitted].
  - split; assumption.
Qed.

Lemma run_keeps_reachable_ok (ops : list (lifecycle.op settings_t)) :
  forall d : embed.driver settings_t derived_t,
    reachable_ok d -> reachable_ok (lifecycle.run ops d).
Proof.
  unfold lifecycle.run.
  induction ops as [| o ops IH]; intros d Hd; cbn [fold_left].
  - exact Hd.
  - apply IH, step_keeps_reachable_ok, Hd.
Qed.

(** X13: after any sequence of [initialize()], [set_as_uninitialized()] and
    writes through [settings()] on a freshly constructed driver, the
    committed settings are either still the default-constructed ones or
    the settings a successful run of [driver_initialize] left staged, and
    the latter whenever the driver reports initialized. *)
Theorem committed_settings_were_accepted (derived : derived_t)
    (ops : list (lifecycle.op settings_t)) :
  let d := lifecycle.run ops (embed.construct default_settings derived) in
  (embed.is_initialized d = true ->
   lifecycle.accepted (embed.initialized_settings d)) /\
  (embed.initialized_settings d = default_settings \/
   lifecycle.accepted (embed.initialized_settings d)).
Proof.
  cbv zeta. apply run_keeps_reachable_ok.
  split; [discriminate | left; reflexivity].
Qed.

End LifecycleFacts.

Lemma committed_settings_were_accepted_witness :
  let d := lifecycle.run
             [lifecycle.assign_settings 115200; lifecycle.call_initialize;
              lifecycle.assign_settings 0; lifecycle.call_initialize]
             serial.fresh in
  embed.is_initialized d = true /\
  lifecycle.accepted (impl := serial.impl) (embed.initialized_settings d).
Proof.
  cbv zeta. split; [reflexivity |].
  apply (proj1 (committed_settings_were_accepted (impl := serial.impl)
                  9600 0%nat
                  [lifecycle.assign_settings 115200; lifecycle.call_initialize;
                   lifecycle.assign_settings 0; lifecycle.call_initialize])).
  reflexivity.
Defined.

(** ** The mock temperature sensor *)

Lemma read_many_empty (n : nat) :
  mock.read_many n {| mock.m_temperatures := [] |}
  = (repeat (Err mock.out_of_range) n, {| mock.m_temperatures := [] |}).
Proof.
  induction n as [| n IH]; [reflexivity |].
  cbn [mock.read_many mock.driver_read mock.m_temperatures repeat].
  rewrite IH. reflexivity.
Qed.

(** X14: after [set] with a queue, successive reads return the queued
    temperatures front first, one per read; once the queue is used up every
    further read fails with out_of_range and the sensor stays empty. *)
Theorem mock_reads_queue_in_order (p_temperatures : list Z)
    (s : mock.temperature_sensor) (extra : nat) :
  mock.read_many (length p_temperatures + extra) (mock.set p_temperatures s)
  = (map Ok p_temperatures ++ repeat (Err mock.out_of_range) extra,
     {| mock.m_temperatures := [] |}).
Proof.
  unfold mock.set. clear s.
  induction p_temperatures as [| t rest IH]; cbn [length Nat.add map app].
  - apply read_many_empty.
  - cbn [mock.read_many mock.driver_read mock.m_temperatures].
    rewrite IH. reflexivity.
Qed.

(** ** The split as a function of the percent *)

(** X15: for a 32-bit cycle count, a percent of 0 puts every cycle on the
    low side and a percent of 1 every cycle on the high side, and a larger
    percent never gives fewer high cycles. *)
Theorem calculate_duty_cycle_monotone (p_cycles : Z) :
  is_u32 p_cycles ->
  (forall denominator, 0 < denominator ->
     hal.calculate_duty_cycle p_cycles (percent.from_ratio 0 denominator)
     = {| hal.high := 0; hal.low := p_cycles |} /\
     hal.calculate_duty_cycle p_cycles
       (percent.from_ratio denominator denominator)
     = {| hal.high := p_cycles; hal.low := 0 |}) /\
  (forall p q : percent.t,
     percent.valid p -> percent.valid q ->
     (percent.factor p <= percent.factor q)%Q ->
     hal.high (hal.calculate_duty_cycle p_cycles p)
     <= hal.high (hal.calculate_duty_cycle p_cycles q)).
Proof.
  intros Hc. pose proof Hc as [Hc0 Hc1]. split.
  - intros denominator Hd.
    rewrite !calculate_duty_cycle_fields
      by (assumption || apply from_ratio_valid).
    rewrite (scale_fraction p_cycles 0 (Z.to_pos denominator))
      by (apply from_ratio_factor; lia).
    rewrite (scale_fraction p_cycles denominator (Z.to_pos denominator))
      by (apply from_ratio_factor; lia).
    rewrite Z2Pos.id by assumption.
    rewrite Z.mul_0_r, Z.div_0_l by lia.
    rewrite Z.div_mul by lia.
    split; f_equal; lia.
  - intros p q Hp Hq Hle.
    rewrite !calculate_duty_cycle_fields by assumption.
    cbn [hal.high]. unfold percent.scale.
    apply Qfloor_resp_le.
    rewrite (Qmult_comm (inject_Z p_cycles) (percent.factor p)).
    rewrite (Qmult_comm (inject_Z p_cycles) (percent.factor q)).
    apply Qmult_le_compat_r; [exact Hle |].
    unfold Qle; cbn [Qnum Qden inject_Z]. lia.
Qed.

Lemma calculate_duty_cycle_monotone_witness :
  hal.high (hal.calculate_duty_cycle 1000 (percent.from_ratio 1 3))
  <= hal.high (hal.calculate_duty_cycle 1000 (percent.from_ratio 1 2)).
Proof.
  apply (proj2 (calculate_duty_cycle_monotone 1000
                  ltac:(unfold is_u32, UINT32_MAX; lia))
           (percent.from_ratio 1 3) (percent.from_ratio 1 2)
           (from_ratio_valid 1 3) (from_ratio_valid 1 2)).
  vm_compute. discriminate.
Defined.
